(** * Bilateral filter, CPU reference: the rank-generic index iterator and
      the filter built on it.

    Source: [monai/csrc/filtering/bilateral/bilateralfilter_cpu.cpp].

    Modelling conventions.
    - C++ [int] and [int64_t] values are members of [Z].  Signed overflow is
      undefined in C++, so the model describes the executions in which every
      integer stays representable (lemma [enumerate_in_box] bounds the
      coordinates an iterator ever holds).
    - C++ [float] values are members of [R]: arithmetic is exact, there is no
      rounding, overflow, infinity or NaN.
    - A raw array ([float*], [int*]) is a total map from offsets to values;
      what an out-of-range access yields is outside the model. *)

From Stdlib Require Import ZArith List Finite Lia Bool Reals Lra Psatz.
Import ListNotations.

Open Scope Z_scope.

(** ** Loops *)

(** The counters [0, 1, ..., n-1] of [for (int i = 0; i < n; i++)];
    empty when [n <= 0]. *)
Definition counters (n : Z) : list Z := map Z.of_nat (seq 0 (Z.to_nat n)).

(** [for (int i = 0; i < n; i++) s = body i s]. *)
Definition for_loop {S : Type} (n : Z) (body : Z -> S -> S) (s : S) : S :=
  fold_left (fun acc i => body i acc) (counters n) s.

(** The same loop with a body that may fail to return. *)
Fixpoint for_each {S : Type} (l : list Z) (body : Z -> S -> option S) (s : S)
  : option S :=
  match l with
  | [] => Some s
  | i :: l' =>
      match body i s with
      | Some s' => for_each l' body s'
      | None => None
      end
  end.

(** Array read [a[i]] on a list-backed integer array. *)
Definition get (a : list Z) (i : Z) : Z := nth (Z.to_nat i) a 0.

(** ** struct Indexer *)

Record Indexer : Type := mkIndexer {
  m_dimensions : Z;
  m_sizes : list Z;
  m_index : list Z
}.

(** [Indexer(int dimensions, int64_t* sizes)]: [new int[dimensions]{0}]. *)
Definition Indexer_new (dimensions : Z) (sizes : list Z) : Indexer :=
  {| m_dimensions := dimensions;
     m_sizes := sizes;
     m_index := repeat 0 (Z.to_nat dimensions) |}.

(** The loop of [operator++(int)], axis by axis from axis 0: add one to the
    coordinate; if it is below the bound, stop with [true]; otherwise reset
    it to zero and go on with the next axis; [false] when the axes are used
    up.  [m_index] has [m_dimensions] entries by construction, so the loop
    over [i < m_dimensions] is the recursion over these entries. *)
Fixpoint carry (sizes index : list Z) : bool * list Z :=
  match index, sizes with
  | x :: index', s :: sizes' =>
      if x + 1 <? s then (true, x + 1 :: index')
      else let (more, rest) := carry sizes' index' in (more, 0 :: rest)
  | _, _ => (false, index)
  end.

(** [bool operator++(int)]: the returned flag and the mutated iterator. *)
Definition incr (ix : Indexer) : bool * Indexer :=
  let (more, index') := carry (m_sizes ix) (m_index ix) in
  (more, {| m_dimensions := m_dimensions ix;
            m_sizes := m_sizes ix;
            m_index := index' |}).

(** [int& operator[](int dimensionIndex)], used for reading. *)
Definition at_axis (ix : Indexer) (dimensionIndex : Z) : Z :=
  get (m_index ix) dimensionIndex.

(** [do { s = body(ix, s); } while (ix++);]  The loop body runs before the
    first test.  [fuel] bounds the number of body executions; [None] means
    the bound was reached or the body did not return. *)
Fixpoint do_while {S : Type} (fuel : nat) (body : Indexer -> S -> option S)
  (ix : Indexer) (s : S) : option S :=
  match fuel with
  | O => None
  | Datatypes.S fuel' =>
      match body ix s with
      | None => None
      | Some s' =>
          let (more, ix') := incr ix in
          if more then do_while fuel' body ix' s' else Some s'
      end
  end.

(** The coordinates at which a post-checked loop runs its body, in order. *)
Definition enumerate (fuel : nat) (ix : Indexer) : option (list (list Z)) :=
  do_while fuel (fun i acc => Some (acc ++ [m_index i])) ix [].

(** The iterator after [n] calls of [operator++], and the flag of the last
    call ([true] for [n = 0]). *)
Fixpoint advance_n (n : nat) (ix : Indexer) : bool * Indexer :=
  match n with
  | O => (true, ix)
  | Datatypes.S n' => incr (snd (advance_n n' ix))
  end.

(** ** Mixed-radix numbering, the yardstick for the iteration order *)

(** Number of points of the box with the given side lengths. *)
Definition volume (sizes : list Z) : Z := fold_right Z.mul 1 sizes.

(** The [k]-th coordinate in mixed-radix order, axis 0 least significant. *)
Fixpoint digits (sizes : list Z) (k : Z) : list Z :=
  match sizes with
  | [] => []
  | s :: sizes' => k mod s :: digits sizes' (k / s)
  end.

(** The rank of a coordinate: inverse of [digits] on the box. *)
Fixpoint rank_of (sizes index : list Z) : Z :=
  match index, sizes with
  | x :: index', s :: sizes' => x + s * rank_of sizes' index'
  | _, _ => 0
  end.

(** A coordinate lies in the box: one entry per axis, each in [0, size). *)
Definition in_box (sizes index : list Z) : Prop :=
  Forall2 (fun x s => 0 <= x < s) index sizes.

(** Side lengths as the post-checked loop sees them: an axis of size zero
    or less still holds the coordinate 0. *)
Definition effective (sizes : list Z) : list Z := map (Z.max 1) sizes.

(** All coordinates of the box in mixed-radix order. *)
Definition box_coords (sizes : list Z) : list (list Z) :=
  map (digits sizes) (counters (volume sizes)).

(** ** Floats, raw buffers and tensors *)

Open Scope R_scope.

(** Conversion of a floating value to [int]: the fraction is discarded,
    rounding toward zero. *)
Definition float_to_int (x : R) : Z :=
  if Rle_dec 0 x then Zfloor x else Zceil x.

(** [ceil] of [math.h]: the least integral value not below [x], as a float. *)
Definition ceil (x : R) : R := IZR (Zceil x).

(** A raw [float*] buffer. *)
Definition buffer : Type := Z -> R.

(** The assignment [a[k] = v]. *)
Definition upd (a : buffer) (k : Z) (v : R) : buffer :=
  fun j => if (j =? k)%Z then v else a j.

(** Contents of a buffer obtained from [new float[n]] or [zeros_like]
    before any write of the filter.  The filter never reads an entry of a
    [new float[n]] array before writing it when its preconditions hold. *)
Definition blank : buffer := fun _ => 0.

(** Element types of a tensor. *)
Inductive ScalarType : Type := Float | Double | Half | Long.

(** A tensor: shape, strides in elements, element type, and the address of
    its storage. *)
Record Tensor : Type := mkTensor {
  t_sizes : list Z;
  t_strides : list Z;
  t_dtype : ScalarType;
  t_data : nat
}.

(** The store: one buffer per address, addresses below [h_next] in use. *)
Record Heap : Type := mkHeap {
  h_next : nat;
  h_cell : nat -> buffer
}.

Definition load (h : Heap) (p : nat) (offset : Z) : R := h_cell h p offset.

Definition store (h : Heap) (p : nat) (offset : Z) (v : R) : Heap :=
  {| h_next := h_next h;
     h_cell := fun q => if Nat.eqb q p then upd (h_cell h p) offset v
                        else h_cell h q |}.

Definition dim (t : Tensor) : Z := Z.of_nat (length (t_sizes t)).
Definition size (t : Tensor) (axis : Z) : Z := get (t_sizes t) axis.
Definition stride (t : Tensor) (axis : Z) : Z := get (t_strides t) axis.

(** Modelled from the spec: [torch::zeros_like], the collaborator that
    allocates a zero-initialized output array matching the input's shape.
    The new storage takes the first unused address; shape, strides and
    element type are those of the argument. *)
Definition zeros_like (h : Heap) (t : Tensor) : Heap * Tensor :=
  ({| h_next := Datatypes.S (h_next h);
      h_cell := fun q => if Nat.eqb q (h_next h) then blank else h_cell h q |},
   {| t_sizes := t_sizes t;
      t_strides := t_strides t;
      t_dtype := t_dtype t;
      t_data := h_next h |}).

(** How a call ends. *)
Inductive outcome (A : Type) : Type :=
| Returned (a : A)
| Threw
| OutOfFuel.
Arguments Returned {A} a.
Arguments Threw {A}.
Arguments OutOfFuel {A}.

(** The mutable data of [BilateralFilterCpu]: the store and the two kernel
    aggregates declared before the batch loop. *)
Record State : Type := mkState {
  st_heap : Heap;
  valueSum : buffer;
  weightSum : R
}.

(** ** BilateralFilterCpu *)

Section Filter.

Variable input : Tensor.
Variables spatialSigma colorSigma : R.
(** [outputData = output.data_ptr<float>()]. *)
Variable outputData : nat.

(** Tensor descriptors. *)
Definition batchCount : Z := size input 0.
Definition channelCount : Z := size input 1.
Definition batchStride : Z := stride input 0.
Definition channelStride : Z := stride input 1.
Definition spatialDimensionCount : Z := (dim input - 2)%Z.
Definition spatialDimensionSizes : list Z := skipn 2 (t_sizes input).
Definition spatialDimensionStrides : list Z := skipn 2 (t_strides input).

(** Raw tensor data pointer. *)
Definition inputData : nat := t_data input.

(** Pre-calculated common values. *)
Definition windowSize : Z := float_to_int (ceil (3 * spatialSigma)).
Definition halfWindowSize : Z := float_to_int (0.5 * IZR windowSize).
Definition spatialExpConstant : R :=
  -1 / (2 * spatialSigma * spatialSigma).
Definition colorExpConstant : R := -1 / (2 * colorSigma * colorSigma).

(** Kernel size array: [windowSize] on each spatial axis. *)
Definition kernelSize : list Z :=
  for_loop spatialDimensionCount (fun _ a => a ++ [windowSize]) [].

(** The 1-D kernel table: [int distance = i - halfWindowSize;
    gaussianKernel[i] = exp(distance * spatialExpConstant)]. *)
Definition gaussianKernel : buffer :=
  for_loop windowSize
    (fun i g =>
       let distance := (i - halfWindowSize)%Z in
       upd g i (exp (IZR distance * spatialExpConstant)))
    blank.

Section Home.

Variable batchOffset : Z.
Variable homeIndex : Indexer.

(** Indexing offset of the home element. *)
Definition homeOffset : Z :=
  for_loop spatialDimensionCount
    (fun i off =>
       (off + at_axis homeIndex i * get spatialDimensionStrides i)%Z)
    batchOffset.

Definition neighbourIndex (kernelIndex : Indexer) (i : Z) : Z :=
  (at_axis homeIndex i + at_axis kernelIndex i - halfWindowSize)%Z.

Definition neighbourIndexClamped (kernelIndex : Indexer) (i : Z) : Z :=
  Z.min (get spatialDimensionSizes i - 1)
        (Z.max 0 (neighbourIndex kernelIndex i)).

(** Buffer offset of the neighbour element, clamped to the border in
    each dimension. *)
Definition neighbourOffset (kernelIndex : Indexer) : Z :=
  for_loop spatialDimensionCount
    (fun i off =>
       (off + neighbourIndexClamped kernelIndex i
              * get spatialDimensionStrides i)%Z)
    batchOffset.

(** Squared Euclidean colour distance between home and neighbour. *)
Definition colorDistanceSquared (h : Heap) (kernelIndex : Indexer) : R :=
  for_loop channelCount
    (fun i acc =>
       let diff :=
         load h inputData (homeOffset + i * channelStride)
         - load h inputData
             (neighbourOffset kernelIndex + i * channelStride) in
       acc + diff * diff)
    0.

Definition spatialWeight (kernelIndex : Indexer) : R :=
  for_loop spatialDimensionCount
    (fun i w => w * gaussianKernel (at_axis kernelIndex i))
    1.

Definition colorWeight (h : Heap) (kernelIndex : Indexer) : R :=
  exp (colorDistanceSquared h kernelIndex * colorExpConstant).

Definition totalWeight (h : Heap) (kernelIndex : Indexer) : R :=
  spatialWeight kernelIndex * colorWeight h kernelIndex.

(** Body of the loop over the neighbour elements. *)
Definition window_body (kernelIndex : Indexer) (st : State) : State :=
  let h := st_heap st in
  let w := totalWeight h kernelIndex in
  {| st_heap := h;
     valueSum :=
       for_loop channelCount
         (fun i vs =>
            upd vs i
              (vs i
               + load h inputData
                   (neighbourOffset kernelIndex + i * channelStride)
                 * w))
         (valueSum st);
     weightSum := weightSum st + w |}.

(** Zeroing of the kernel aggregates. *)
Definition zero_aggregates (st : State) : State :=
  {| st_heap := st_heap st;
     valueSum := for_loop channelCount (fun i vs => upd vs i 0)
                   (valueSum st);
     weightSum := 0 |}.

(** The loop over the window: [Indexer kernelIndex = Indexer(
    spatialDimensionCount, kernelSize); do { ... } while(kernelIndex++)]. *)
Definition window_pass (fuel : nat) (st : State) : option State :=
  do_while fuel (fun k s => Some (window_body k s))
    (Indexer_new spatialDimensionCount kernelSize)
    (zero_aggregates st).

(** The normalised values written for the home element. *)
Definition write_output (st : State) : State :=
  {| st_heap :=
       for_loop channelCount
         (fun i h =>
            store h outputData (homeOffset + i * channelStride)
              (valueSum st i / weightSum st))
         (st_heap st);
     valueSum := valueSum st;
     weightSum := weightSum st |}.

(** Body of the loop over the home elements. *)
Definition home_body (fuel : nat) (st : State) : option State :=
  option_map write_output (window_pass fuel st).

End Home.

(** The loop over the batches, each with its loop over the home elements. *)
Definition batch_loop (fuel : nat) (st : State) : option State :=
  for_each (counters batchCount)
    (fun b s =>
       let batchOffset := (b * batchStride)%Z in
       do_while fuel (fun homeIndex s' => home_body batchOffset homeIndex fuel s')
         (Indexer_new spatialDimensionCount spatialDimensionSizes) s)
    st.

End Filter.

(** [torch::Tensor BilateralFilterCpu(torch::Tensor input, float
    spatialSigma, float colorSigma)] run on the store [h].  The accessors
    of the tensor library throw on a tensor without a batch or channel axis
    and on an element type other than single precision. *)
Definition BilateralFilterCpu (fuel : nat) (h : Heap) (input : Tensor)
  (spatialSigma colorSigma : R) : outcome (Heap * Tensor) :=
  let (h1, output) := zeros_like h input in
  if (dim input <? 2)%Z then Threw
  else
    match t_dtype input with
    | Float =>
        let outputData := t_data output in
        match batch_loop input spatialSigma colorSigma outputData fuel
                {| st_heap := h1; valueSum := blank; weightSum := 0 |} with
        | Some st => Returned (st_heap st, output)
        | None => OutOfFuel
        end
    | _ => Threw
    end.

(** Number of body executions that the two post-checked loops of one call
    need at most. *)
Definition fuel_for (input : Tensor) (spatialSigma : R) : nat :=
  Z.to_nat
    (Z.max (volume (effective (spatialDimensionSizes input)))
           (volume (effective (kernelSize input spatialSigma)))).

(** The body executions of a post-checked loop, listed by coordinate. *)
Fixpoint visit {S : Type} (d : Z) (sizes : list Z)
  (body : Indexer -> S -> option S) (coords : list (list Z)) (s : S)
  : option S :=
  match coords with
  | [] => Some s
  | c :: coords' =>
      match body (mkIndexer d sizes c) s with
      | Some s' => visit d sizes body coords' s'
      | None => None
      end
  end.

(** The window position whose offset from the home element is zero. *)
Definition window_centre (input : Tensor) (spatialSigma : R) : list Z :=
  repeat (halfWindowSize spatialSigma)
    (Z.to_nat (spatialDimensionCount input)).




(** The store [h] differs from [h0] at most in the buffer at address [p]. *)
Definition only_at (p : nat) (h0 h : Heap) : Prop :=
  h_next h = h_next h0 /\ forall q, q <> p -> h_cell h q = h_cell h0 q.


(** The preconditions of a filter call: at least one spatial axis besides
    batch and channel, no empty axis, a stride per axis, single-precision
    elements, and sigmas above zero. *)
Definition valid_call (input : Tensor) (spatialSigma colorSigma : R) : Prop :=
  (3 <= dim input)%Z
  /\ Forall (fun s => (1 <= s)%Z) (t_sizes input)
  /\ length (t_strides input) = length (t_sizes input)
  /\ t_dtype input = Float
  /\ 0 < spatialSigma
  /\ 0 < colorSigma.

(** A small call used to exercise the statements below: one batch, one
    channel, one spatial axis of size 2, contiguous, stored at address 0 of
    a store with one buffer. *)
Definition sample_input : Tensor :=
  {| t_sizes := [1; 1; 2]%Z;
     t_strides := [2; 2; 1]%Z;
     t_dtype := Float;
     t_data := 0%nat |}.

Definition sample_heap : Heap :=
  {| h_next := 1%nat;
     h_cell := fun _ i => if (i =? 0)%Z then 4 else 8 |}.


Definition sample_state : State :=
  {| st_heap := sample_heap; valueSum := blank; weightSum := 0 |}.

(** ** Yardsticks for offsets, sums and elements *)









(** The home iterator standing at the coordinate [home]. *)
Definition home_at (input : Tensor) (home : list Z) : Indexer :=
  mkIndexer (spatialDimensionCount input) (spatialDimensionSizes input) home.




(** A tensor with an empty batch axis. *)
Definition empty_batch_input : Tensor :=
  {| t_sizes := [0; 2; 2]%Z;
     t_strides := [4; 2; 1]%Z;
     t_dtype := Float;
     t_data := 0%nat |}.


(** * Properties of the iterator *)

Open Scope Z_scope.

Lemma counters_length n : length (counters n) = Z.to_nat n.
Proof. unfold counters. now rewrite length_map, length_seq. Qed.

Lemma counters_In n i : In i (counters n) <-> 0 <= i < n.
Proof.
  unfold counters. rewrite in_map_iff. split.
  - intros (k & <- & Hk). apply in_seq in Hk. lia.
  - intros Hi. exists (Z.to_nat i). split; [lia|]. apply in_seq. lia.
Qed.

Lemma counters_nth n k :
  0 <= k < n -> nth (Z.to_nat k) (counters n) 0 = k.
Proof.
  intros Hk. unfold counters.
  replace (nth (Z.to_nat k) (map Z.of_nat (seq 0 (Z.to_nat n))) 0)
    with (nth (Z.to_nat k) (map Z.of_nat (seq 0 (Z.to_nat n))) (Z.of_nat 0))
    by reflexivity.
  rewrite map_nth, seq_nth by lia. lia.
Qed.

Lemma counters_NoDup n : NoDup (counters n).
Proof.
  unfold counters. apply Injective_map_NoDup.
  - intros a b Hab. lia.
  - apply seq_NoDup.
Qed.


Lemma volume_effective_pos sizes : 1 <= volume (effective sizes).
Proof.
  induction sizes as [|s sizes IH]; simpl; [lia|].
  change (fold_right Z.mul 1 (map (Z.max 1) sizes))
    with (volume (effective sizes)).
  nia.
Qed.

Lemma effective_id sizes :
  Forall (fun s => 1 <= s) sizes -> effective sizes = sizes.
Proof.
  unfold effective.
  induction 1 as [|s sizes Hs _ IH]; simpl; [reflexivity|].
  rewrite IH. f_equal. lia.
Qed.

Lemma effective_ge1 sizes : Forall (fun s => 1 <= s) (effective sizes).
Proof.
  unfold effective. induction sizes; simpl; constructor; [lia|assumption].
Qed.

Lemma volume_pos sizes : Forall (fun s => 1 <= s) sizes -> 1 <= volume sizes.
Proof.
  intros H. rewrite <- (effective_id sizes H). apply volume_effective_pos.
Qed.

Lemma digits_length sizes k : length (digits sizes k) = length sizes.
Proof.
  revert k. induction sizes as [|s sizes IH]; intros k; simpl;
    [reflexivity | now rewrite IH].
Qed.

Lemma digits_zero sizes : digits sizes 0 = repeat 0 (length sizes).
Proof.
  induction sizes as [|s sizes IH]; simpl; [reflexivity|].
  rewrite Zmod_0_l, Zdiv_0_l, IH. reflexivity.
Qed.

Lemma digits_in_box sizes k :
  Forall (fun s => 1 <= s) sizes -> in_box sizes (digits sizes k).
Proof.
  intros H. revert k.
  induction H as [|s sizes Hs _ IH]; intros k; simpl; constructor.
  - apply Z.mod_pos_bound. lia.
  - apply IH.
Qed.

Lemma rank_of_digits sizes k :
  Forall (fun s => 1 <= s) sizes -> 0 <= k < volume sizes ->
  rank_of sizes (digits sizes k) = k.
Proof.
  intros H. revert k.
  induction H as [|s sizes Hs Hall IH]; intros k Hk; simpl in *.
  - lia.
  - change (fold_right Z.mul 1 sizes) with (volume sizes) in Hk.
    rewrite IH.
    + pose proof (Z.div_mod k s). lia.
    + split; [apply Z.div_pos; lia|].
      apply Z.div_lt_upper_bound; lia.
Qed.

Lemma rank_of_bound sizes c :
  in_box sizes c -> 0 <= rank_of sizes c < volume sizes.
Proof.
  unfold in_box. induction 1 as [|x s c sizes Hx _ IH]; simpl.
  - lia.
  - change (fold_right Z.mul 1 sizes) with (volume sizes). nia.
Qed.

Lemma digits_rank_of sizes c :
  in_box sizes c -> digits sizes (rank_of sizes c) = c.
Proof.
  unfold in_box. induction 1 as [|x s c sizes Hx _ IH]; simpl.
  - reflexivity.
  - replace (x + s * rank_of sizes c) with (x + rank_of sizes c * s) by lia.
    rewrite Z_mod_plus_full, Z_div_plus_full by lia.
    rewrite Z.mod_small, Z.div_small by lia. simpl. now rewrite IH.
Qed.

(** One call of [operator++] moves from rank [k] to rank [k + 1] and tells
    whether that rank is still inside the box; past the last rank the
    coordinate is the all-zero one again. *)
Lemma carry_digits sizes k :
  Forall (fun s => 1 <= s) sizes -> 0 <= k < volume sizes ->
  carry sizes (digits sizes k)
  = (k + 1 <? volume sizes,
     if k + 1 <? volume sizes then digits sizes (k + 1)
     else repeat 0 (length sizes)).
Proof.
  intros H. revert k.
  induction H as [|s sizes Hs Hall IH]; intros k Hk; simpl in *.
  - replace (k + 1 <? 1) with false by (symmetry; apply Z.ltb_ge; lia).
    reflexivity.
  - change (fold_right Z.mul 1 sizes) with (volume sizes) in *.
    pose proof (volume_pos sizes Hall) as HP.
    pose proof (Z.div_mod k s ltac:(lia)) as Hdm.
    pose proof (Z.mod_pos_bound k s ltac:(lia)) as Hm.
    assert (Hq : 0 <= k / s < volume sizes).
    { split; [apply Z.div_pos; lia|]. apply Z.div_lt_upper_bound; lia. }
    destruct (Z.ltb_spec (k mod s + 1) s) as [Hlt|Hge].
    + assert (Hk1 : k + 1 < s * volume sizes) by nia.
      apply Z.ltb_lt in Hk1. rewrite Hk1. f_equal. f_equal.
      * apply Z.mod_unique_pos with (q := k / s); lia.
      * f_equal. apply Z.div_unique_pos with (r := k mod s + 1); lia.
    + rewrite (IH (k / s) Hq).
      assert (Hmod : (k + 1) mod s = 0).
      { symmetry. apply Z.mod_unique_pos with (q := k / s + 1); lia. }
      assert (Hdiv : (k + 1) / s = k / s + 1).
      { symmetry. apply Z.div_unique_pos with (r := 0); lia. }
      destruct (Z.ltb_spec (k / s + 1) (volume sizes)) as [Hin|Hout].
      * assert (Hk1 : k + 1 < s * volume sizes) by nia.
        apply Z.ltb_lt in Hk1. rewrite Hk1, Hmod, Hdiv. reflexivity.
      * assert (Hk1 : s * volume sizes <= k + 1) by nia.
        apply Z.ltb_ge in Hk1. rewrite Hk1. reflexivity.
Qed.

(** On coordinates that are not negative the test [index + 1 < size] cannot
    tell a size below one from the size one. *)
Lemma carry_effective sizes index :
  Forall (fun x => 0 <= x) index ->
  carry sizes index = carry (effective sizes) index.
Proof.
  intros H. revert sizes.
  induction H as [|x index Hx _ IH]; intros [|s sizes]; simpl;
    try reflexivity.
  rewrite <- IH.
  destruct (Z.ltb_spec (x + 1) s), (Z.ltb_spec (x + 1) (Z.max 1 s));
    try reflexivity; lia.
Qed.

Lemma in_box_nonneg sizes c : in_box sizes c -> Forall (fun x => 0 <= x) c.
Proof.
  unfold in_box. induction 1; constructor; [lia|assumption].
Qed.

Lemma effective_length sizes : length (effective sizes) = length sizes.
Proof. apply length_map. Qed.

Lemma carry_rank sizes k :
  0 <= k < volume (effective sizes) ->
  carry sizes (digits (effective sizes) k)
  = (k + 1 <? volume (effective sizes),
     if k + 1 <? volume (effective sizes)
     then digits (effective sizes) (k + 1)
     else repeat 0 (length sizes)).
Proof.
  intros Hk. rewrite carry_effective.
  - rewrite carry_digits by (auto using effective_ge1).
    now rewrite effective_length.
  - eapply in_box_nonneg, digits_in_box, effective_ge1.
Qed.

Lemma incr_rank d sizes k :
  0 <= k < volume (effective sizes) ->
  incr (mkIndexer d sizes (digits (effective sizes) k))
  = (k + 1 <? volume (effective sizes),
     mkIndexer d sizes
       (if k + 1 <? volume (effective sizes)
        then digits (effective sizes) (k + 1)
        else repeat 0 (length sizes))).
Proof.
  intros Hk. unfold incr. simpl. now rewrite carry_rank.
Qed.

Lemma Indexer_new_rank0 d sizes :
  d = Z.of_nat (length sizes) ->
  Indexer_new d sizes = mkIndexer d sizes (digits (effective sizes) 0).
Proof.
  intros ->. unfold Indexer_new.
  now rewrite digits_zero, effective_length, Nat2Z.id.
Qed.

(** A post-checked loop started at rank [a] runs its body at the ranks
    [a, a+1, ..., V-1] and stops, given fuel for that many executions. *)
Lemma do_while_ranks {S : Type} (body : Indexer -> S -> option S) d sizes :
  forall (n a fuel : nat) (s : S),
    Z.of_nat (a + n) = volume (effective sizes) ->
    (1 <= n <= fuel)%nat ->
    do_while fuel body
      (mkIndexer d sizes (digits (effective sizes) (Z.of_nat a))) s
    = visit d sizes body
        (map (digits (effective sizes)) (map Z.of_nat (seq a n))) s.
Proof.
  induction n as [|n IH]; intros a fuel s HV Hn; [lia|].
  destruct fuel as [|fuel]; [lia|].
  cbn [do_while seq map visit].
  destruct (body _ s) as [s'|]; [|reflexivity].
  rewrite incr_rank by lia.
  destruct (Z.ltb_spec (Z.of_nat a + 1) (volume (effective sizes)))
    as [Hin|Hout].
  - replace (Z.of_nat a + 1) with (Z.of_nat (Datatypes.S a)) by lia.
    apply IH; lia.
  - assert (n = 0%nat) as -> by lia. reflexivity.
Qed.

Lemma do_while_box {S : Type} (body : Indexer -> S -> option S) d sizes
  fuel (s : S) :
  d = Z.of_nat (length sizes) ->
  (Z.to_nat (volume (effective sizes)) <= fuel)%nat ->
  do_while fuel body (Indexer_new d sizes) s
  = visit d sizes body (box_coords (effective sizes)) s.
Proof.
  intros Hd Hfuel. rewrite (Indexer_new_rank0 d sizes Hd).
  pose proof (volume_effective_pos sizes) as HV.
  unfold box_coords, counters.
  apply (do_while_ranks body d sizes
           (Z.to_nat (volume (effective sizes))) 0%nat fuel s); lia.
Qed.

Lemma visit_collect d sizes coords acc :
  visit d sizes (fun i a => Some (a ++ [m_index i])) coords acc
  = Some (acc ++ coords).
Proof.
  revert acc. induction coords as [|c coords IH]; intros acc; simpl.
  - now rewrite app_nil_r.
  - rewrite IH, <- app_assoc. reflexivity.
Qed.

Lemma enumerate_box d sizes fuel :
  d = Z.of_nat (length sizes) ->
  (Z.to_nat (volume (effective sizes)) <= fuel)%nat ->
  enumerate fuel (Indexer_new d sizes) = Some (box_coords (effective sizes)).
Proof.
  intros Hd Hfuel. unfold enumerate.
  rewrite do_while_box by assumption. apply visit_collect.
Qed.

Lemma box_coords_length sizes :
  length (box_coords sizes) = Z.to_nat (volume sizes).
Proof. unfold box_coords. now rewrite length_map, counters_length. Qed.

Lemma box_coords_nth sizes k :
  0 <= k < volume sizes ->
  nth (Z.to_nat k) (box_coords sizes) [] = digits sizes k.
Proof.
  intros Hk. unfold box_coords.
  rewrite nth_indep with (d' := digits sizes 0)
    by (rewrite length_map, counters_length; lia).
  now rewrite map_nth, counters_nth.
Qed.

Lemma box_coords_In sizes c :
  Forall (fun s => 1 <= s) sizes ->
  In c (box_coords sizes) <-> in_box sizes c.
Proof.
  intros H. unfold box_coords. rewrite in_map_iff. split.
  - intros (k & <- & _). now apply digits_in_box.
  - intros Hc. exists (rank_of sizes c). split.
    + now apply digits_rank_of.
    + apply counters_In. now apply rank_of_bound.
Qed.

Lemma box_coords_NoDup sizes :
  Forall (fun s => 1 <= s) sizes -> NoDup (box_coords sizes).
Proof.
  intros H. unfold box_coords. apply Injective_map_NoDup_in.
  - intros j k Hj Hk E. apply counters_In in Hj, Hk.
    rewrite <- (rank_of_digits sizes j H Hj), <- (rank_of_digits sizes k H Hk).
    now rewrite E.
  - apply counters_NoDup.
Qed.

(** The coordinates an iterator holds while its loop runs stay inside the
    box, so with sizes that fit [int] no coordinate leaves [int]. *)
Lemma enumerate_in_box d sizes fuel coords c :
  d = Z.of_nat (length sizes) ->
  Forall (fun s => 1 <= s) sizes ->
  (Z.to_nat (volume sizes) <= fuel)%nat ->
  enumerate fuel (Indexer_new d sizes) = Some coords ->
  In c coords -> in_box sizes c.
Proof.
  intros Hd H Hfuel He Hc.
  rewrite enumerate_box in He by (rewrite ?effective_id; assumption).
  rewrite effective_id in He by assumption.
  injection He as <-. now apply box_coords_In.
Qed.

Lemma advance_n_rank d sizes (n : nat) :
  Z.of_nat n < volume (effective sizes) ->
  advance_n n (mkIndexer d sizes (digits (effective sizes) 0))
  = (true, mkIndexer d sizes (digits (effective sizes) (Z.of_nat n))).
Proof.
  induction n as [|n IH]; intros Hn; [reflexivity|].
  cbn [advance_n]. rewrite IH by lia. cbn [snd].
  rewrite incr_rank by lia.
  replace (Z.of_nat n + 1) with (Z.of_nat (Datatypes.S n)) by lia.
  destruct (Z.ltb_spec (Z.of_nat (Datatypes.S n)) (volume (effective sizes)));
    [reflexivity | lia].
Qed.

Lemma advance_n_last d sizes (n : nat) :
  Z.of_nat n = volume (effective sizes) ->
  advance_n n (mkIndexer d sizes (digits (effective sizes) 0))
  = (false, mkIndexer d sizes (repeat 0 (length sizes))).
Proof.
  intros Hn. pose proof (volume_effective_pos sizes) as HV.
  destruct n as [|n]; [lia|].
  cbn [advance_n]. rewrite advance_n_rank by lia. cbn [snd].
  rewrite incr_rank by lia.
  destruct (Z.ltb_spec (Z.of_nat n + 1) (volume (effective sizes)));
    [lia | reflexivity].
Qed.

(** When [operator++] returns [false] it has reset every axis. *)
Lemma carry_false_zero sizes index rest :
  length sizes = length index ->
  carry sizes index = (false, rest) -> rest = repeat 0 (length index).
Proof.
  revert sizes rest.
  induction index as [|x index IH]; intros [|s sizes] rest Hlen Hc;
    simpl in *; try discriminate.
  - now injection Hc as <-.
  - destruct (x + 1 <? s); [discriminate|].
    destruct (carry sizes index) as [more r] eqn:E.
    injection Hc as -> <-. f_equal. apply (IH sizes); [lia | assumption].
Qed.



(** C5.  For sizes that are all at least one, the post-checked loop over a
    freshly built iterator runs its body at exactly [volume sizes]
    coordinates: the points of the box, each once, in mixed-radix order with
    axis 0 fastest.  The [n]-th call of [operator++] returns [true] as long
    as [n] is below the number of points and [false] at the call after the
    last point. *)
Theorem indexer_enumerates_box (d : Z) (sizes : list Z) (fuel : nat) :
  1 <= d ->
  d = Z.of_nat (length sizes) ->
  Forall (fun s => 1 <= s) sizes ->
  (Z.to_nat (volume sizes) <= fuel)%nat ->
  enumerate fuel (Indexer_new d sizes) = Some (box_coords sizes)
  /\ Z.of_nat (length (box_coords sizes)) = volume sizes
  /\ NoDup (box_coords sizes)
  /\ (forall c, In c (box_coords sizes) <-> in_box sizes c)
  /\ (forall k, 0 <= k < volume sizes ->
        nth (Z.to_nat k) (box_coords sizes) [] = digits sizes k)
  /\ (forall n : nat, (1 <= n)%nat -> Z.of_nat n <= volume sizes ->
        fst (advance_n n (Indexer_new d sizes))
        = (Z.of_nat n <? volume sizes)).
Proof.
  intros _ Hd Hall Hfuel.
  pose proof (effective_id sizes Hall) as Heff.
  pose proof (volume_pos sizes Hall) as HV.
  repeat split.
  - rewrite <- Heff at 2. apply enumerate_box; rewrite ?Heff; assumption.
  - rewrite box_coords_length. lia.
  - now apply box_coords_NoDup.
  - now apply box_coords_In.
  - now apply box_coords_In.
  - now apply box_coords_nth.
  - intros n Hn1 HnV. rewrite (Indexer_new_rank0 d sizes Hd).
    destruct (Z.ltb_spec (Z.of_nat n) (volume sizes)) as [Hlt|Hge].
    + rewrite advance_n_rank by (rewrite Heff; lia). reflexivity.
    + rewrite advance_n_last by (rewrite Heff; lia). reflexivity.
Qed.

Lemma indexer_enumerates_box_witness :
  (1 <= 2
   /\ 2 = Z.of_nat (length [2; 3])
   /\ Forall (fun s => 1 <= s) [2; 3]
   /\ (Z.to_nat (volume [2; 3]%Z) <= 6)%nat)
  /\ enumerate 6 (Indexer_new 2 [2; 3])
     = Some [[0; 0]; [1; 0]; [0; 1]; [1; 1]; [0; 2]; [1; 2]].
Proof.
  assert (H1 : 1 <= 2) by lia.
  assert (H2 : 2 = Z.of_nat (length [2; 3])) by reflexivity.
  assert (H3 : Forall (fun s => 1 <= s) [2; 3])
    by (repeat constructor; lia).
  assert (H4 : (Z.to_nat (volume [2; 3]%Z) <= 6)%nat) by (simpl; lia).
  split; [now repeat split|].
  exact (proj1 (indexer_enumerates_box 2 [2; 3] 6 H1 H2 H3 H4)).
Defined.

(** C9.  When [operator++] returns [false], every axis of the coordinate is
    zero again and the iterator is the one its constructor builds: there is
    no separate exhausted state, and a loop run on it visits the same
    coordinates as a loop on a fresh iterator. *)
Theorem exhausted_indexer_is_fresh (ix ix' : Indexer) :
  length (m_sizes ix) = length (m_index ix) ->
  Z.to_nat (m_dimensions ix) = length (m_index ix) ->
  incr ix = (false, ix') ->
  Forall (fun x => x = 0) (m_index ix')
  /\ ix' = Indexer_new (m_dimensions ix) (m_sizes ix)
  /\ (forall fuel,
        enumerate fuel ix'
        = enumerate fuel (Indexer_new (m_dimensions ix) (m_sizes ix))).
Proof.
  intros Hlen Hd Hincr. unfold incr in Hincr.
  destruct (carry (m_sizes ix) (m_index ix)) as [more rest] eqn:Hc.
  injection Hincr as -> <-.
  apply carry_false_zero in Hc; [|assumption]. subst rest.
  assert (Hfresh : {| m_dimensions := m_dimensions ix;
                      m_sizes := m_sizes ix;
                      m_index := repeat 0 (length (m_index ix)) |}
                   = Indexer_new (m_dimensions ix) (m_sizes ix)).
  { unfold Indexer_new. now rewrite Hd. }
  repeat split.
  - simpl. apply Forall_forall. intros x Hx.
    now apply repeat_spec in Hx.
  - exact Hfresh.
  - intros fuel. now rewrite Hfresh.
Qed.

Lemma exhausted_indexer_is_fresh_witness :
  incr (mkIndexer 2 [2; 3] [1; 2]) = (false, Indexer_new 2 [2; 3])
  /\ Forall (fun x => x = 0) (m_index (Indexer_new 2 [2; 3])).
Proof.
  assert (H : incr (mkIndexer 2 [2; 3] [1; 2])
              = (false, Indexer_new 2 [2; 3])) by reflexivity.
  split; [exact H|].
  exact (proj1 (exhausted_indexer_is_fresh
                  (mkIndexer 2 [2; 3] [1; 2]) (Indexer_new 2 [2; 3])
                  eq_refl eq_refl H)).
Defined.




(** * Properties of the filter *)

Open Scope R_scope.

(** ** Loop reasoning *)


(** A loop keeps what each of its iterations keeps. *)
Lemma for_loop_invariant {S : Type} (P : S -> Prop) n (body : Z -> S -> S)
  (s : S) :
  P s ->
  (forall i acc, (0 <= i < n)%Z -> P acc -> P (body i acc)) ->
  P (for_loop n body s).
Proof.
  intros Hs Hstep. unfold for_loop.
  assert (Hin : forall i, In i (counters n) -> (0 <= i < n)%Z)
    by (intros i; apply counters_In).
  revert s Hs Hin. induction (counters n) as [|i l IH]; intros s Hs Hin.
  - exact Hs.
  - simpl. apply IH.
    + apply Hstep; [apply Hin; now left | exact Hs].
    + intros j Hj. apply Hin. now right.
Qed.


Lemma upd_same a k v : upd a k v k = v.
Proof. unfold upd. now rewrite Z.eqb_refl. Qed.

Lemma upd_other a k v j : j <> k -> upd a k v j = a j.
Proof.
  intros Hjk. unfold upd.
  destruct (Z.eqb_spec j k); [contradiction | reflexivity].
Qed.

(** A loop that assigns entry [i] in iteration [i] from the entry's own
    old value leaves, at [j], the value of iteration [j]. *)
Lemma fold_upd_entry (f : Z -> R -> R) (l : list Z) (a : buffer) (j : Z) :
  NoDup l ->
  fold_left (fun g i => upd g i (f i (g i))) l a j
  = if in_dec Z.eq_dec j l then f j (a j) else a j.
Proof.
  intros Hl. revert a.
  induction Hl as [|i l Hi Hl IH]; intros a; [reflexivity|].
  cbn [fold_left]. rewrite IH.
  destruct (in_dec Z.eq_dec j l) as [Hj|Hj],
           (in_dec Z.eq_dec j (i :: l)) as [Hj'|Hj'].
  - rewrite upd_other by (intros ->; contradiction). reflexivity.
  - exfalso. apply Hj'. now right.
  - destruct Hj' as [->|Hj']; [|contradiction]. apply upd_same.
  - apply upd_other. intros ->. apply Hj'. now left.
Qed.

Lemma for_loop_upd_entry (f : Z -> R -> R) n (a : buffer) (j : Z) :
  (0 <= j < n)%Z ->
  for_loop n (fun i g => upd g i (f i (g i))) a j = f j (a j).
Proof.
  intros Hj. unfold for_loop.
  rewrite (fold_upd_entry f (counters n) a j (counters_NoDup n)).
  destruct (in_dec Z.eq_dec j (counters n)) as [_|Hn]; [reflexivity|].
  exfalso. apply Hn. now apply counters_In.
Qed.

(** ** Window geometry *)

Lemma float_to_int_IZR z : float_to_int (IZR z) = z.
Proof.
  unfold float_to_int. destruct (Rle_dec 0 (IZR z)).
  - apply ZfloorZ.
  - unfold Zceil. rewrite ZfloorNZ. lia.
Qed.

Lemma windowSize_ceil spatialSigma :
  windowSize spatialSigma = Zceil (3 * spatialSigma).
Proof. unfold windowSize, ceil. apply float_to_int_IZR. Qed.

Lemma windowSize_pos spatialSigma :
  0 < spatialSigma -> (1 <= windowSize spatialSigma)%Z.
Proof.
  intros Hs. rewrite windowSize_ceil.
  destruct (Zceil_bound (3 * spatialSigma)) as [_ Hub].
  assert (H0 : 0 < IZR (Zceil (3 * spatialSigma))) by lra.
  apply lt_IZR in H0. lia.
Qed.

Lemma half_of_nonneg (w : Z) :
  (0 <= w)%Z -> float_to_int (0.5 * IZR w) = (w / 2)%Z.
Proof.
  intros Hw. unfold float_to_int.
  assert (Hr : 0 <= IZR w) by (apply IZR_le; exact Hw).
  destruct (Rle_dec 0 (0.5 * IZR w)) as [_|Hneg]; [|exfalso; lra].
  apply Zfloor_eq.
  pose proof (Z.div_mod w 2 ltac:(lia)) as Hdm.
  pose proof (Z.mod_pos_bound w 2 ltac:(lia)) as Hm.
  assert (Hlo : (2 * (w / 2) <= w)%Z) by lia.
  assert (Hhi : (w < 2 * (w / 2) + 2)%Z) by lia.
  apply IZR_le in Hlo. apply IZR_lt in Hhi.
  rewrite mult_IZR in Hlo. rewrite plus_IZR, mult_IZR in Hhi.
  lra.
Qed.

Lemma halfWindowSize_div spatialSigma :
  0 < spatialSigma ->
  halfWindowSize spatialSigma = (windowSize spatialSigma / 2)%Z.
Proof.
  intros Hs. unfold halfWindowSize. apply half_of_nonneg.
  pose proof (windowSize_pos spatialSigma Hs). lia.
Qed.

(** The window centre is a position of the window. *)
Lemma halfWindowSize_bounds spatialSigma :
  0 < spatialSigma ->
  (0 <= halfWindowSize spatialSigma < windowSize spatialSigma)%Z.
Proof.
  intros Hs. rewrite halfWindowSize_div by assumption.
  pose proof (windowSize_pos spatialSigma Hs) as Hw.
  split; [apply Z.div_pos; lia | apply Z.div_lt_upper_bound; lia].
Qed.



(** ** The kernel table *)

(** What the table holds: the exponential of the signed distance from the
    window centre times [spatialExpConstant]. *)
Lemma gaussianKernel_entry spatialSigma i :
  (0 <= i < windowSize spatialSigma)%Z ->
  gaussianKernel spatialSigma i
  = exp (IZR (i - halfWindowSize spatialSigma)
         * spatialExpConstant spatialSigma).
Proof.
  intros Hi. unfold gaussianKernel.
  apply (for_loop_upd_entry
           (fun j _ => exp (IZR (j - halfWindowSize spatialSigma)
                            * spatialExpConstant spatialSigma))).
  exact Hi.
Qed.

Lemma gaussianKernel_pos spatialSigma i :
  (0 <= i < windowSize spatialSigma)%Z -> 0 < gaussianKernel spatialSigma i.
Proof. intros Hi. rewrite gaussianKernel_entry by exact Hi. apply exp_pos. Qed.


Lemma windowSize_one : windowSize 1 = 3%Z.
Proof. rewrite windowSize_ceil. apply Zceil_eq. simpl. lra. Qed.

Lemma halfWindowSize_one : halfWindowSize 1 = 1%Z.
Proof.
  rewrite halfWindowSize_div by lra. now rewrite windowSize_one.
Qed.

(** C1, on the code.  For [spatialSigma = 1] the window has three
    positions and centre 1.  Entry 0 of the table is [exp (1/2)]: the
    exponent is the signed distance [-1] times [spatialExpConstant = -1/2].
    The Gaussian of the squared distance is [exp (-1/2)], a different
    number: the table entry is not the value the claim gives. *)
Theorem gaussianKernel_entry_not_squared :
  gaussianKernel 1 0%Z = exp (1 / 2)
  /\ exp (IZR ((0 - halfWindowSize 1) ^ 2) * spatialExpConstant 1)
     = exp (- (1 / 2))
  /\ gaussianKernel 1 0%Z
     <> exp (IZR ((0 - halfWindowSize 1) ^ 2) * spatialExpConstant 1).
Proof.
  assert (Hcode : gaussianKernel 1 0%Z = exp (1 / 2)).
  { rewrite gaussianKernel_entry by (rewrite windowSize_one; lia).
    rewrite halfWindowSize_one. unfold spatialExpConstant. simpl.
    f_equal. lra. }
  assert (Hclaim : exp (IZR ((0 - halfWindowSize 1) ^ 2)
                        * spatialExpConstant 1) = exp (- (1 / 2))).
  { rewrite halfWindowSize_one. unfold spatialExpConstant. simpl.
    f_equal. lra. }
  repeat split; try assumption.
  rewrite Hcode, Hclaim. intros E.
  assert (Hlt : exp (- (1 / 2)) < exp (1 / 2)) by (apply exp_increasing; lra).
  lra.
Qed.

(** ** Arrays of coordinates *)

Lemma get_in_box sizes c i :
  in_box sizes c -> (0 <= i < Z.of_nat (length sizes))%Z ->
  (0 <= get c i < get sizes i)%Z.
Proof.
  unfold in_box, get. intros Hbox Hi.
  assert (Hn : (Z.to_nat i < length sizes)%nat) by lia. clear Hi.
  revert Hn. generalize (Z.to_nat i) as n.
  induction Hbox as [|x s c sizes Hx _ IH]; intros n Hn; simpl in Hn.
  - lia.
  - destruct n as [|n]; simpl; [exact Hx | apply IH; lia].
Qed.

Lemma get_repeat v n i :
  (0 <= i < Z.of_nat n)%Z -> get (repeat v n) i = v.
Proof. intros Hi. unfold get. apply nth_repeat_lt. lia. Qed.

Lemma in_box_repeat v s n :
  (0 <= v < s)%Z -> in_box (repeat s n) (repeat v n).
Proof.
  intros Hv. unfold in_box.
  induction n; simpl; constructor; [exact Hv | assumption].
Qed.


Lemma Forall_repeat_ge1 s n :
  (1 <= s)%Z -> Forall (fun t => (1 <= t)%Z) (repeat s n).
Proof. intros Hs. induction n; simpl; constructor; assumption. Qed.

Lemma visit_total {S : Type} d sizes (f : Indexer -> S -> S) coords (s : S) :
  visit d sizes (fun k acc => Some (f k acc)) coords s
  = Some (fold_left (fun acc c => f (mkIndexer d sizes c) acc) coords s).
Proof.
  revert s. induction coords as [|c coords IH]; intros s; simpl;
    [reflexivity | apply IH].
Qed.

(** ** One pass over the window *)

Section Window.

Variable input : Tensor.
Variables spatialSigma colorSigma : R.
Variable batchOffset : Z.
Variable homeIndex : Indexer.

Hypothesis Hsigma : 0 < spatialSigma.
Hypothesis Hrank : (2 <= dim input)%Z.

Local Abbreviation d := (spatialDimensionCount input).
Local Abbreviation ks := (kernelSize input spatialSigma).
Local Abbreviation w := (windowSize spatialSigma).
Local Abbreviation half := (halfWindowSize spatialSigma).
Local Abbreviation kix := (mkIndexer d ks).
Local Abbreviation nOff :=
  (neighbourOffset input spatialSigma batchOffset homeIndex).
Local Abbreviation hOff := (homeOffset input batchOffset homeIndex).
Local Abbreviation tw :=
  (totalWeight input spatialSigma colorSigma batchOffset homeIndex).
Local Abbreviation body :=
  (window_body input spatialSigma colorSigma batchOffset homeIndex).
Local Abbreviation cs := (channelStride input).
Local Abbreviation centre := (window_centre input spatialSigma).

Lemma spatialDimensionCount_nonneg : (0 <= d)%Z.
Proof. unfold spatialDimensionCount. lia. Qed.

Lemma kernelSize_repeat : ks = repeat w (Z.to_nat d).
Proof.
  unfold kernelSize, for_loop. rewrite <- (counters_length d).
  generalize (counters d) as l.
  assert (H : forall (l : list Z) acc,
             fold_left (fun (a : list Z) (_ : Z) => a ++ [w]) l acc
             = acc ++ repeat w (length l)).
  { induction l as [|i l IH]; intros acc; simpl.
    - now rewrite app_nil_r.
    - rewrite IH, <- app_assoc. reflexivity. }
  intros l. apply (H l []).
Qed.

Lemma kernelSize_length : d = Z.of_nat (length ks).
Proof.
  rewrite kernelSize_repeat, repeat_length.
  pose proof spatialDimensionCount_nonneg. lia.
Qed.

Lemma kernelSize_ge1 : Forall (fun s => (1 <= s)%Z) ks.
Proof.
  rewrite kernelSize_repeat. apply Forall_repeat_ge1.
  now apply windowSize_pos.
Qed.

Lemma kernelSize_effective : effective ks = ks.
Proof. apply effective_id, kernelSize_ge1. Qed.

(** A window coordinate holds a position of the table on each axis. *)
Lemma kernel_coord_range k i :
  in_box ks k -> (0 <= i < d)%Z -> (0 <= at_axis (kix k) i < w)%Z.
Proof.
  intros Hk Hi. unfold at_axis. cbn [m_index].
  pose proof (get_in_box ks k i Hk) as Hg.
  rewrite <- kernelSize_length in Hg. specialize (Hg Hi).
  rewrite kernelSize_repeat in Hg.
  rewrite get_repeat in Hg by lia. exact Hg.
Qed.

Lemma spatialWeight_pos k :
  in_box ks k -> 0 < spatialWeight input spatialSigma (kix k).
Proof.
  intros Hk. unfold spatialWeight.
  apply for_loop_invariant with (P := fun v => 0 < v); [lra|].
  intros i acc Hi Hacc. apply Rmult_lt_0_compat; [exact Hacc|].
  apply gaussianKernel_pos. now apply kernel_coord_range.
Qed.

Lemma totalWeight_pos h k : in_box ks k -> 0 < tw h (kix k).
Proof.
  intros Hk. unfold totalWeight.
  apply Rmult_lt_0_compat; [now apply spatialWeight_pos|].
  unfold colorWeight. apply exp_pos.
Qed.

Lemma centre_in_box : in_box ks centre.
Proof.
  rewrite kernelSize_repeat. unfold window_centre. apply in_box_repeat.
  now apply halfWindowSize_bounds.
Qed.







Lemma window_body_valueSum k st c :
  (0 <= c < channelCount input)%Z ->
  valueSum (body k st) c
  = valueSum st c
    + load (st_heap st) (inputData input) (nOff k + c * cs)
      * tw (st_heap st) k.
Proof.
  intros Hc. unfold window_body. cbn [valueSum].
  apply (for_loop_upd_entry
           (fun i v =>
              v + load (st_heap st) (inputData input) (nOff k + i * cs)
                  * tw (st_heap st) k)).
  exact Hc.
Qed.

Lemma zero_aggregates_valueSum st c :
  (0 <= c < channelCount input)%Z ->
  valueSum (zero_aggregates input st) c = 0.
Proof.
  intros Hc. unfold zero_aggregates. cbn [valueSum].
  apply (for_loop_upd_entry (fun _ _ => 0)). exact Hc.
Qed.

Local Abbreviation run coords st :=
  (fold_left (fun acc c => body (kix c) acc) coords st).

Lemma run_heap coords st : st_heap (run coords st) = st_heap st.
Proof.
  revert st. induction coords as [|k coords IH]; intros st; simpl;
    [reflexivity | now rewrite IH].
Qed.

(** The weight sum grows by at least the weight of any one neighbour. *)
Lemma run_weight coords st :
  Forall (in_box ks) coords ->
  weightSum st <= weightSum (run coords st)
  /\ forall k0, In k0 coords ->
       weightSum st + tw (st_heap st) (kix k0) <= weightSum (run coords st).
Proof.
  intros Hall. revert st.
  induction Hall as [|k coords Hk _ IH]; intros st; simpl.
  - split; [lra | contradiction].
  - destruct (IH (body (kix k) st)) as [Hmono Hin].
    pose proof (totalWeight_pos (st_heap st) k Hk) as Hpos.
    change (weightSum (body (kix k) st))
      with (weightSum st + tw (st_heap st) (kix k)) in Hmono, Hin.
    change (st_heap (body (kix k) st)) with (st_heap st) in Hin.
    split; [lra|]. intros k0 [<- | Hk0]; [lra|].
    specialize (Hin k0 Hk0).
    pose proof (totalWeight_pos (st_heap st) k0) as Hpos0. lra.
Qed.

(** Weighted-average invariant of the two aggregates. *)
Lemma run_bounds coords st c lo hi :
  (0 <= c < channelCount input)%Z ->
  Forall (in_box ks) coords ->
  (forall k, In k coords ->
     lo <= load (st_heap st) (inputData input) (nOff (kix k) + c * cs)
        <= hi) ->
  lo * weightSum st <= valueSum st c <= hi * weightSum st ->
  lo * weightSum (run coords st) <= valueSum (run coords st) c
    <= hi * weightSum (run coords st).
Proof.
  intros Hc Hall. revert st.
  induction Hall as [|k coords Hk _ IH]; intros st Hval Hinv; simpl.
  - exact Hinv.
  - apply IH.
    + intros k0 Hk0. change (st_heap (body (kix k) st)) with (st_heap st).
      apply Hval. now right.
    + rewrite window_body_valueSum by exact Hc.
      change (weightSum (body (kix k) st))
        with (weightSum st + tw (st_heap st) (kix k)).
      pose proof (totalWeight_pos (st_heap st) k Hk) as Hpos.
      pose proof (Hval k (or_introl eq_refl)) as Hv.
      nra.
Qed.

Lemma window_coords_in_box : Forall (in_box ks) (box_coords ks).
Proof.
  apply Forall_forall. intros k Hk.
  now apply box_coords_In in Hk; [|apply kernelSize_ge1].
Qed.

(** With fuel for the window volume the pass returns, and its result is
    the fold of the loop body over the window positions. *)
Lemma window_pass_run fuel st :
  (Z.to_nat (volume (effective ks)) <= fuel)%nat ->
  window_pass input spatialSigma colorSigma batchOffset homeIndex fuel st
  = Some (run (box_coords ks) (zero_aggregates input st)).
Proof.
  intros Hfuel. unfold window_pass.
  rewrite do_while_box by (auto using kernelSize_length).
  rewrite kernelSize_effective. apply visit_total.
Qed.

End Window.

(** ** Value ranges, shapes and fuel *)



Lemma spatial_sizes_length input :
  (2 <= dim input)%Z ->
  spatialDimensionCount input
  = Z.of_nat (length (spatialDimensionSizes input)).
Proof.
  unfold spatialDimensionCount, spatialDimensionSizes, dim. intros H.
  rewrite length_skipn. lia.
Qed.


Lemma fuel_for_window input spatialSigma fuel :
  (fuel_for input spatialSigma <= fuel)%nat ->
  (Z.to_nat (volume (effective (kernelSize input spatialSigma))) <= fuel)%nat.
Proof. unfold fuel_for. lia. Qed.

Lemma fuel_for_home input spatialSigma fuel :
  (fuel_for input spatialSigma <= fuel)%nat ->
  (Z.to_nat (volume (effective (spatialDimensionSizes input))) <= fuel)%nat.
Proof. unfold fuel_for. lia. Qed.

(** The window pass returns with a positive weight sum, leaves the store
    alone, and for each channel leaves a quotient within any bounds that
    hold for the neighbourhood. *)
Lemma window_pass_average (input : Tensor) (spatialSigma colorSigma : R)
  (batchOffset : Z) (homeIndex : Indexer) (fuel : nat) (st : State) :
  (2 <= dim input)%Z -> 0 < spatialSigma ->
  (fuel_for input spatialSigma <= fuel)%nat ->
  exists st',
    window_pass input spatialSigma colorSigma batchOffset homeIndex fuel st
    = Some st'
    /\ st_heap st' = st_heap st
    /\ 0 < weightSum st'
    /\ forall c lo hi,
         (0 <= c < channelCount input)%Z ->
         (forall k, In k (box_coords (kernelSize input spatialSigma)) ->
            lo <= load (st_heap st) (inputData input)
                    (neighbourOffset input spatialSigma batchOffset homeIndex
                       (mkIndexer (spatialDimensionCount input)
                          (kernelSize input spatialSigma) k)
                     + c * channelStride input)
               <= hi) ->
         lo <= valueSum st' c / weightSum st' <= hi.
Proof.
  intros Hrank2 Hs Hfuel.
  pose proof (window_pass_run input spatialSigma colorSigma batchOffset
                homeIndex Hs Hrank2 fuel st
                (fuel_for_window _ _ _ Hfuel)) as Hrun.
  pose proof (window_coords_in_box input spatialSigma Hs) as Hall.
  set (coords := box_coords (kernelSize input spatialSigma)) in *.
  set (st0 := zero_aggregates input st) in *.
  eexists. split; [exact Hrun|].
  split; [now rewrite run_heap|].
  assert (Hcin : In (window_centre input spatialSigma) coords).
  { apply box_coords_In; [now apply kernelSize_ge1 | now apply centre_in_box]. }
  destruct (run_weight input spatialSigma colorSigma batchOffset homeIndex
              Hrank2 coords st0 Hall) as [_ Hin].
  specialize (Hin _ Hcin).
  pose proof (totalWeight_pos input spatialSigma colorSigma batchOffset
                homeIndex Hrank2 (st_heap st0)
                (window_centre input spatialSigma)
                (centre_in_box input spatialSigma Hs)) as Hpos.
  change (weightSum st0) with 0 in Hin.
  match goal with |- 0 < weightSum ?s /\ _ => set (st1 := s) in * end.
  assert (Hws : 0 < weightSum st1) by lra.
  split; [exact Hws|].
  intros c lo hi Hc Hval.
  pose proof (run_bounds input spatialSigma colorSigma batchOffset homeIndex
                Hrank2 coords st0 c lo hi Hc Hall Hval) as Hb.
  fold st1 in Hb.
  assert (H0 : valueSum st0 c = 0)
    by (now apply zero_aggregates_valueSum).
  change (weightSum st0) with 0 in Hb. rewrite H0 in Hb.
  specialize (Hb ltac:(lra)).
  assert (Hq : valueSum st1 c / weightSum st1 * weightSum st1
               = valueSum st1 c) by (field; lra).
  split; nra.
Qed.

(** ** Claims on the window pass *)


Lemma sample_valid : valid_call sample_input 1 1.
Proof.
  unfold valid_call, dim. simpl.
  repeat split; try reflexivity; try lra; try lia.
  repeat constructor; lia.
Defined.







(** ** The store during a call *)

Lemma store_only_at p h0 h offset v :
  only_at p h0 h -> only_at p h0 (store h p offset v).
Proof.
  intros [Hn Hc]. split; [exact Hn|].
  intros q Hq. unfold store. cbn [h_cell].
  destruct (Nat.eqb_spec q p); [contradiction | now apply Hc].
Qed.




Lemma write_output_only_at input p batchOffset homeIndex h0 st :
  only_at p h0 (st_heap st) ->
  only_at p h0 (st_heap (write_output input p batchOffset homeIndex st)).
Proof.
  intros H. unfold write_output. cbn [st_heap].
  apply for_loop_invariant with (P := only_at p h0); [exact H|].
  intros i acc _ Hacc. now apply store_only_at.
Qed.


(** ** Loops with invariants *)

Lemma visit_invariant {S : Type} (I : S -> Prop) d sizes
  (body : Indexer -> S -> option S) coords :
  (forall c s, In c coords -> I s ->
     exists s', body (mkIndexer d sizes c) s = Some s' /\ I s') ->
  forall s, I s -> exists s', visit d sizes body coords s = Some s' /\ I s'.
Proof.
  induction coords as [|c coords IH]; intros Hbody s Hs; simpl.
  - exists s. now split.
  - destruct (Hbody c s (or_introl eq_refl) Hs) as (s1 & -> & Hs1).
    apply IH; [|exact Hs1].
    intros c' s' Hc'. apply Hbody. now right.
Qed.

(** A loop whose iterations keep [I], move along the preorder [Rel] and
    each establish a [Rel]-stable property [Q i] establishes all of them. *)
Lemma for_each_progress {S : Type} (I : S -> Prop) (Rel : S -> S -> Prop)
  (Q : Z -> S -> Prop) (body : Z -> S -> option S) l :
  (forall a, Rel a a) ->
  (forall a b c, Rel a b -> Rel b c -> Rel a c) ->
  (forall i a b, Q i a -> Rel a b -> Q i b) ->
  (forall i s, In i l -> I s ->
     exists s', body i s = Some s' /\ I s' /\ Rel s s' /\ Q i s') ->
  forall s, I s ->
    exists s', for_each l body s = Some s' /\ I s' /\ Rel s s'
               /\ forall i, In i l -> Q i s'.
Proof.
  intros Hrefl Htrans Hstable.
  induction l as [|i l IH]; intros Hbody s Hs; simpl.
  - exists s. repeat split; auto. contradiction.
  - destruct (Hbody i s (or_introl eq_refl) Hs) as (s1 & -> & Hs1 & Hr1 & Hq1).
    destruct (IH (fun j t Hj => Hbody j t (or_intror Hj)) s1 Hs1)
      as (s2 & Hrun & Hs2 & Hr2 & Hq2).
    exists s2. repeat split; auto.
    + eapply Htrans; eassumption.
    + intros j [<-|Hj]; [eapply Hstable; eassumption | now apply Hq2].
Qed.

(** ** One home element *)

(** Processing one home element returns and touches only the output
    buffer. *)
Lemma home_body_only_at (input : Tensor) (spatialSigma colorSigma : R)
  (outputData : nat) (batchOffset : Z) (homeIndex : Indexer) (fuel : nat)
  (h0 : Heap) (st : State) :
  (2 <= dim input)%Z -> 0 < spatialSigma ->
  (fuel_for input spatialSigma <= fuel)%nat ->
  only_at outputData h0 (st_heap st) ->
  exists st',
    home_body input spatialSigma colorSigma outputData batchOffset homeIndex
      fuel st = Some st'
    /\ only_at outputData h0 (st_heap st').
Proof.
  intros Hrank2 Hs Hfuel Hframe.
  destruct (window_pass_average input spatialSigma colorSigma batchOffset
              homeIndex fuel st Hrank2 Hs Hfuel) as (st1 & Hrun & Hheap & _).
  unfold home_body. rewrite Hrun. cbn [option_map].
  eexists. split; [reflexivity|].
  apply write_output_only_at. now rewrite Hheap.
Qed.

(** ** The whole call *)

Lemma zeros_like_only_at h input p :
  (p < h_next h)%nat ->
  h_cell (fst (zeros_like h input)) p = h_cell h p.
Proof.
  intros Hp. unfold zeros_like. cbn [fst h_cell].
  destruct (Nat.eqb_spec p (h_next h)); [lia | reflexivity].
Qed.

(** All loops of a call return, given fuel, and write to the output buffer
    only. *)
Lemma batch_loop_only_at (input : Tensor) (spatialSigma colorSigma : R)
  (outputData : nat) (fuel : nat) (h0 : Heap) (st : State) :
  (2 <= dim input)%Z -> 0 < spatialSigma ->
  (fuel_for input spatialSigma <= fuel)%nat ->
  only_at outputData h0 (st_heap st) ->
  exists st',
    batch_loop input spatialSigma colorSigma outputData fuel st = Some st'
    /\ only_at outputData h0 (st_heap st').
Proof.
  intros Hrank2 Hs Hfuel Hframe. unfold batch_loop.
  destruct (for_each_progress
              (fun s => only_at outputData h0 (st_heap s))
              (fun _ _ => True) (fun _ _ => True)
              (fun b s =>
                 do_while fuel
                   (fun homeIndex s' =>
                      home_body input spatialSigma colorSigma outputData
                        (b * batchStride input) homeIndex fuel s')
                   (Indexer_new (spatialDimensionCount input)
                      (spatialDimensionSizes input)) s)
              (counters (batchCount input)))
    with (s := st) as (st' & Hrun & Hst' & _); auto.
  - intros b s _ Hinv.
    rewrite do_while_box;
      [| now apply spatial_sizes_length
       | now apply (fuel_for_home input spatialSigma)].
    destruct (visit_invariant
                (fun s => only_at outputData h0 (st_heap s))
                (spatialDimensionCount input) (spatialDimensionSizes input)
                (fun homeIndex s' =>
                   home_body input spatialSigma colorSigma outputData
                     (b * batchStride input) homeIndex fuel s')
                (box_coords (effective (spatialDimensionSizes input))))
      with (s := s) as (s' & Hv & Hs'); auto.
    + intros c t _ Ht. now apply home_body_only_at.
    + exists s'. auto.
  - exists st'. auto.
Qed.

(** C8.  A call on a valid input returns.  Every buffer the store held
    before the call, the input's among them, is unchanged; the returned
    tensor has storage at an address that was not in use before the call,
    so distinct from the input's, and has the rank, the sizes and the
    single-precision element type of the input. *)
Theorem filter_frame (fuel : nat) (h : Heap) (input : Tensor)
  (spatialSigma colorSigma : R) :
  valid_call input spatialSigma colorSigma ->
  (t_data input < h_next h)%nat ->
  (fuel_for input spatialSigma <= fuel)%nat ->
  exists h' output,
    BilateralFilterCpu fuel h input spatialSigma colorSigma
    = Returned (h', output)
    /\ (forall p o, (p < h_next h)%nat -> load h' p o = load h p o)
    /\ (forall o, load h' (t_data input) o = load h (t_data input) o)
    /\ t_data output <> t_data input
    /\ (h_next h <= t_data output < h_next h')%nat
    /\ dim output = dim input
    /\ t_sizes output = t_sizes input
    /\ t_dtype output = Float.
Proof.
  intros (Hrank & Hsizes & _ & Hdtype & Hs & _) Halloc Hfuel.
  assert (Hrank2 : (2 <= dim input)%Z) by lia.
  set (h1 := fst (zeros_like h input)).
  destruct (batch_loop_only_at input spatialSigma colorSigma (h_next h) fuel
              h1 {| st_heap := h1; valueSum := blank; weightSum := 0 |}
              Hrank2 Hs Hfuel) as (st & Hrun & Hnext & Hcells).
  { split; [reflexivity | auto]. }
  assert (Hold : forall p o, (p < h_next h)%nat ->
                   load (st_heap st) p o = load h p o).
  { intros p o Hp. unfold load.
    rewrite Hcells by lia. unfold h1. now rewrite zeros_like_only_at. }
  exists (st_heap st), (snd (zeros_like h input)).
  split.
  { unfold BilateralFilterCpu. cbn [zeros_like snd].
    destruct (Z.ltb_spec (dim input) 2); [lia|].
    rewrite Hdtype. cbn [t_data].
    unfold h1 in Hrun. cbn [zeros_like fst] in Hrun.
    rewrite Hrun. reflexivity. }
  cbn [zeros_like snd t_data t_sizes t_dtype]. unfold dim. cbn [t_sizes].
  repeat split; auto; try lia.
  rewrite Hnext. unfold h1. cbn [zeros_like fst h_next]. lia.
Qed.

Lemma filter_frame_witness :
  valid_call sample_input 1 1
  /\ (t_data sample_input < h_next sample_heap)%nat
  /\ exists h' output,
       BilateralFilterCpu (fuel_for sample_input 1) sample_heap
         sample_input 1 1 = Returned (h', output)
       /\ (forall o, load h' (t_data sample_input) o
                     = load sample_heap (t_data sample_input) o)
       /\ t_data output <> t_data sample_input
       /\ t_sizes output = t_sizes sample_input.
Proof.
  assert (Ha : (t_data sample_input < h_next sample_heap)%nat)
    by (simpl; lia).
  split; [exact sample_valid|]. split; [exact Ha|].
  destruct (filter_frame (fuel_for sample_input 1) sample_heap sample_input
              1 1 sample_valid Ha (le_n _))
    as (h' & output & Hrun & _ & Hin & Hne & _ & _ & Hsz & _).
  exists h', output. repeat split; assumption.
Defined.

(** ** Single-pixel spatial domain *)









(** * Further properties of the iterator *)

Open Scope Z_scope.

Lemma in_box_ge1 sizes c :
  in_box sizes c -> Forall (fun s => 1 <= s) sizes.
Proof. unfold in_box. induction 1; constructor; [lia | assumption]. Qed.

Lemma carry_length sizes index :
  length (snd (carry sizes index)) = length index.
Proof.
  revert sizes. induction index as [|x index IH]; intros [|s sizes]; simpl;
    try reflexivity.
  destruct (x + 1 <? s); [reflexivity|].
  specialize (IH sizes). destruct (carry sizes index) as [more rest].
  simpl in *. now rewrite IH.
Qed.

Lemma carry_in_box sizes index :
  in_box sizes index -> in_box sizes (snd (carry sizes index)).
Proof.
  unfold in_box. induction 1 as [|x s index sizes Hx Hrest IH]; simpl.
  - constructor.
  - destruct (Z.ltb_spec (x + 1) s).
    + simpl. constructor; [lia | assumption].
    + destruct (carry sizes index) as [more rest]. simpl in *.
      constructor; [lia | assumption].
Qed.

Lemma rank_of_zeros sizes n : rank_of sizes (repeat 0 n) = 0.
Proof.
  revert sizes. induction n as [|n IH]; intros [|s sizes]; simpl;
    try reflexivity.
  rewrite IH. lia.
Qed.

(** X1.  [operator++] never takes a coordinate out of the box of its
    sizes, and changes neither the sizes, nor the number of dimensions, nor
    the number of coordinates. *)
Theorem incr_stays_in_box (ix : Indexer) :
  in_box (m_sizes ix) (m_index ix) ->
  in_box (m_sizes (snd (incr ix))) (m_index (snd (incr ix)))
  /\ m_sizes (snd (incr ix)) = m_sizes ix
  /\ m_dimensions (snd (incr ix)) = m_dimensions ix
  /\ length (m_index (snd (incr ix))) = length (m_index ix).
Proof.
  intros Hbox. unfold incr.
  pose proof (carry_in_box _ _ Hbox) as Hc.
  pose proof (carry_length (m_sizes ix) (m_index ix)) as Hl.
  destruct (carry (m_sizes ix) (m_index ix)) as [more rest].
  simpl in *. auto.
Qed.

Lemma incr_stays_in_box_witness :
  in_box [2; 3] [1; 2]
  /\ in_box [2; 3] (m_index (snd (incr (mkIndexer 2 [2; 3] [1; 2])))).
Proof.
  assert (H : in_box [2; 3] [1; 2])
    by (unfold in_box; repeat constructor; lia).
  split; [exact H|].
  exact (proj1 (incr_stays_in_box (mkIndexer 2 [2; 3] [1; 2]) H)).
Defined.

(** X2.  On a coordinate inside the box [operator++] is the successor of
    the mixed-radix numbering: it returns [true] exactly when the
    coordinate is not the last one of the box, and the rank of the new
    coordinate is the old rank plus one, wrapping to zero after the last
    coordinate. *)
Theorem incr_rank_successor (ix : Indexer) :
  in_box (m_sizes ix) (m_index ix) ->
  fst (incr ix)
  = (rank_of (m_sizes ix) (m_index ix) + 1 <? volume (m_sizes ix))
  /\ rank_of (m_sizes ix) (m_index (snd (incr ix)))
     = (rank_of (m_sizes ix) (m_index ix) + 1) mod volume (m_sizes ix).
Proof.
  intros Hbox.
  pose proof (in_box_ge1 _ _ Hbox) as Hge.
  pose proof (rank_of_bound _ _ Hbox) as Hk.
  pose proof (carry_digits (m_sizes ix) _ Hge Hk) as Hc.
  rewrite (digits_rank_of _ _ Hbox) in Hc.
  unfold incr. rewrite Hc. cbn [fst snd m_index].
  split; [reflexivity|].
  destruct (Z.ltb_spec (rank_of (m_sizes ix) (m_index ix) + 1)
              (volume (m_sizes ix))) as [Hlt|Hge'].
  - rewrite rank_of_digits by (auto; lia).
    symmetry. apply Z.mod_small. lia.
  - rewrite rank_of_zeros.
    replace (rank_of (m_sizes ix) (m_index ix) + 1) with (volume (m_sizes ix))
      by lia.
    symmetry. apply Z_mod_same_full.
Qed.

Lemma incr_rank_successor_witness :
  in_box [2; 3] [1; 1]
  /\ fst (incr (mkIndexer 2 [2; 3] [1; 1])) = true
  /\ rank_of [2; 3] (m_index (snd (incr (mkIndexer 2 [2; 3] [1; 1])))) = 4.
Proof.
  assert (H : in_box [2; 3] [1; 1])
    by (unfold in_box; repeat constructor; lia).
  split; [exact H|].
  exact (incr_rank_successor (mkIndexer 2 [2; 3] [1; 1]) H).
Defined.

Lemma mod_succ_small n V :
  0 <= n -> 0 < V -> n mod V + 1 < V -> (n + 1) mod V = n mod V + 1.
Proof.
  intros Hn HV Hlt.
  pose proof (Z.div_mod n V ltac:(lia)) as Hdm.
  pose proof (Z.mod_pos_bound n V HV) as Hm.
  symmetry. apply Z.mod_unique_pos with (q := n / V); lia.
Qed.

Lemma mod_succ_wrap n V :
  0 <= n -> 0 < V -> V <= n mod V + 1 -> (n + 1) mod V = 0.
Proof.
  intros Hn HV Hge.
  pose proof (Z.div_mod n V ltac:(lia)) as Hdm.
  pose proof (Z.mod_pos_bound n V HV) as Hm.
  symmetry. apply Z.mod_unique_pos with (q := n / V + 1); lia.
Qed.

(** X3.  The trajectory of a fresh iterator is periodic: after [n] calls
    of [operator++] it stands at the coordinate of rank [n mod V], where
    [V] is the number of coordinates the loop visits, and a call returns
    [false] exactly when it lands on rank zero again. *)
Theorem advance_n_periodic (d : Z) (sizes : list Z) (n : nat) :
  (1 <= d)%Z ->
  d = Z.of_nat (length sizes) ->
  m_index (snd (advance_n n (Indexer_new d sizes)))
  = digits (effective sizes) (Z.of_nat n mod volume (effective sizes))
  /\ m_sizes (snd (advance_n n (Indexer_new d sizes))) = sizes
  /\ m_dimensions (snd (advance_n n (Indexer_new d sizes))) = d
  /\ ((1 <= n)%nat ->
      fst (advance_n n (Indexer_new d sizes))
      = negb (Z.of_nat n mod volume (effective sizes) =? 0)).
Proof.
  intros _ Hd. rewrite (Indexer_new_rank0 d sizes Hd).
  pose proof (volume_effective_pos sizes) as HV.
  assert (Hstate : forall m,
            snd (advance_n m (mkIndexer d sizes (digits (effective sizes) 0)))
            = mkIndexer d sizes
                (digits (effective sizes)
                   (Z.of_nat m mod volume (effective sizes)))
            /\ ((1 <= m)%nat ->
                fst (advance_n m
                       (mkIndexer d sizes (digits (effective sizes) 0)))
                = negb (Z.of_nat m mod volume (effective sizes) =? 0))).
  { induction m as [|m [IHs _]].
    - split; [|lia]. cbn [advance_n snd]. now rewrite Zmod_0_l.
    - cbn [advance_n]. rewrite IHs.
      pose proof (Z.mod_pos_bound (Z.of_nat m) (volume (effective sizes))
                    ltac:(lia)) as Hm.
      rewrite incr_rank by lia. cbn [fst snd].
      replace (Z.of_nat (Datatypes.S m)) with (Z.of_nat m + 1) by lia.
      destruct (Z.ltb_spec (Z.of_nat m mod volume (effective sizes) + 1)
                  (volume (effective sizes))) as [Hlt|Hge].
      + rewrite mod_succ_small by lia. split; [reflexivity|].
        intros _. symmetry. apply negb_true_iff, Z.eqb_neq. lia.
      + rewrite mod_succ_wrap by lia. split; [|reflexivity].
        now rewrite digits_zero, effective_length. }
  destruct (Hstate n) as [Hs Hf]. rewrite Hs. cbn [m_index m_sizes m_dimensions].
  auto.
Qed.

Lemma advance_n_periodic_witness :
  2 = Z.of_nat (length [2; 3])
  /\ m_index (snd (advance_n 8 (Indexer_new 2 [2; 3]))) = [0; 1]
  /\ fst (advance_n 6 (Indexer_new 2 [2; 3])) = false.
Proof.
  assert (H : 2 = Z.of_nat (length [2; 3])) by reflexivity.
  split; [exact H|]. split.
  - exact (proj1 (advance_n_periodic 2 [2; 3] 8 ltac:(lia) H)).
  - apply (proj2 (proj2 (proj2 (advance_n_periodic 2 [2; 3] 6 ltac:(lia) H)))). lia.
Defined.

(** * Further properties of the window and of the kernel table *)

Open Scope R_scope.



Lemma volume_repeat w n : volume (repeat w n) = (w ^ Z.of_nat n)%Z.
Proof.
  induction n as [|n IH]; [reflexivity|].
  cbn [repeat volume fold_right].
  change (fold_right Z.mul 1%Z (repeat w n)) with (volume (repeat w n)).
  rewrite IH, Nat2Z.inj_succ, Z.pow_succ_r by lia. reflexivity.
Qed.

(** X4.  The window of a home element reaches from [w / 2] positions
    before the home coordinate to [(w - 1) / 2] positions after it on each
    axis, [w] being the window size: the unclamped neighbour coordinate of
    every window position lies in that range, the first and the last
    window position attain its ends, and for an even window size the
    window reaches one position further before the home element than
    after it. *)
Theorem window_reach (input : Tensor) (spatialSigma : R)
  (homeIndex : Indexer) :
  0 < spatialSigma ->
  (3 <= dim input)%Z ->
  let w := windowSize spatialSigma in
  let kix := mkIndexer (spatialDimensionCount input)
               (kernelSize input spatialSigma) in
  (forall k i,
     in_box (kernelSize input spatialSigma) k ->
     (0 <= i < spatialDimensionCount input)%Z ->
     (at_axis homeIndex i - w / 2
      <= neighbourIndex spatialSigma homeIndex (kix k) i
      <= at_axis homeIndex i + (w - 1) / 2)%Z)
  /\ (0 - halfWindowSize spatialSigma = - (w / 2))%Z
  /\ (w - 1 - halfWindowSize spatialSigma = (w - 1) / 2)%Z
  /\ (Z.even w = true -> ((w - 1) / 2 = w / 2 - 1)%Z)
  /\ (Z.odd w = true -> ((w - 1) / 2 = w / 2)%Z).
Proof.
  intros Hs Hrank3 w kix.
  assert (Hrank : (2 <= dim input)%Z) by lia.
  pose proof (windowSize_pos spatialSigma Hs) as Hw. fold w in Hw.
  pose proof (halfWindowSize_div spatialSigma Hs) as Hh. fold w in Hh.
  assert (Hright : (w - 1 - w / 2 = (w - 1) / 2)%Z).
  { pose proof (Z.div_mod w 2 ltac:(lia)).
    pose proof (Z.mod_pos_bound w 2 ltac:(lia)).
    pose proof (Z.div_mod (w - 1) 2 ltac:(lia)).
    pose proof (Z.mod_pos_bound (w - 1) 2 ltac:(lia)). lia. }
  repeat split.
  - pose proof (kernel_coord_range input spatialSigma Hrank k i H H0).
    unfold neighbourIndex. rewrite Hh. fold w in H1. unfold kix. lia.
  - pose proof (kernel_coord_range input spatialSigma Hrank k i H H0).
    unfold neighbourIndex. rewrite Hh. fold w in H1. unfold kix. lia.
  - rewrite Hh. lia.
  - rewrite Hh. exact Hright.
  - intros He. apply Z.even_spec in He. destruct He as [m Hm].
    rewrite <- Hright. rewrite Hm.
    replace (2 * m)%Z with (m * 2)%Z by lia. rewrite Z.div_mul by lia. lia.
  - intros Ho. apply Z.odd_spec in Ho. destruct Ho as [m Hm].
    rewrite <- Hright. rewrite Hm.
    replace ((2 * m + 1) / 2)%Z with m; [lia|].
    apply Z.div_unique_pos with (r := 1%Z); lia.
Qed.

Lemma window_reach_witness :
  0 < 1
  /\ (3 <= dim sample_input)%Z
  /\ (0 - halfWindowSize 1 = - (windowSize 1 / 2))%Z
  /\ (windowSize 1 - 1 - halfWindowSize 1 = (windowSize 1 - 1) / 2)%Z.
Proof.
  assert (H1 : 0 < 1) by lra.
  assert (H2 : (3 <= dim sample_input)%Z) by (unfold dim; simpl; lia).
  split; [exact H1|]. split; [exact H2|].
  destruct (window_reach sample_input 1 (mkIndexer 1 [2%Z] [0%Z]) H1 H2)
    as (_ & Hl & Hr & _).
  split; [exact Hl | exact Hr].
Defined.







(** * Offsets of the accessed elements *)

Open Scope Z_scope.













(** * The window pass in closed form *)

Open Scope R_scope.

Section WindowSums.

Variable input : Tensor.
Variables spatialSigma colorSigma : R.
Variable batchOffset : Z.
Variable homeIndex : Indexer.

Local Abbreviation kix :=
  (mkIndexer (spatialDimensionCount input) (kernelSize input spatialSigma)).
Local Abbreviation body :=
  (window_body input spatialSigma colorSigma batchOffset homeIndex).
Local Abbreviation tw :=
  (totalWeight input spatialSigma colorSigma batchOffset homeIndex).
Local Abbreviation nOff :=
  (neighbourOffset input spatialSigma batchOffset homeIndex).
Local Abbreviation run coords st :=
  (fold_left (fun acc c => body (kix c) acc) coords st).



(** Outside its [channelCount] entries the pass leaves [valueSum] alone. *)
Lemma run_value_outside coords st j :
  ~ (0 <= j < channelCount input)%Z ->
  valueSum (run coords st) j = valueSum st j.
Proof.
  intros Hj. revert st. induction coords as [|k coords IH]; intros st; simpl.
  - reflexivity.
  - rewrite IH. unfold window_body. cbn [valueSum]. unfold for_loop.
    rewrite (fold_upd_entry
               (fun i v =>
                  v + load (st_heap st) (inputData input)
                        (nOff (kix k) + i * channelStride input)
                      * tw (st_heap st) (kix k))
               (counters (channelCount input)) (valueSum st) j
               (counters_NoDup _)).
    destruct (in_dec Z.eq_dec j (counters (channelCount input))) as [Hin|_];
      [|reflexivity].
    apply counters_In in Hin. contradiction.
Qed.

End WindowSums.

Lemma zero_aggregates_outside input st j :
  ~ (0 <= j < channelCount input)%Z ->
  valueSum (zero_aggregates input st) j = valueSum st j.
Proof.
  intros Hj. unfold zero_aggregates. cbn [valueSum]. unfold for_loop.
  rewrite (fold_upd_entry (fun _ _ => 0) (counters (channelCount input))
             (valueSum st) j (counters_NoDup _)).
  destruct (in_dec Z.eq_dec j (counters (channelCount input))) as [Hin|_];
    [|reflexivity].
  apply counters_In in Hin. contradiction.
Qed.




(** X9.  The window pass writes nothing but its aggregates: it leaves the
    store as it was and leaves every entry of [valueSum] outside the
    [channelCount] entries of the array untouched. *)
Theorem window_pass_frame (input : Tensor) (spatialSigma colorSigma : R)
  (batchOffset : Z) (homeIndex : Indexer) (fuel : nat) (st st' : State) :
  window_pass input spatialSigma colorSigma batchOffset homeIndex fuel st
  = Some st' ->
  (3 <= dim input)%Z ->
  (fuel_for input spatialSigma <= fuel)%nat ->
  st_heap st' = st_heap st
  /\ forall j, ~ (0 <= j < channelCount input)%Z ->
       valueSum st' j = valueSum st j.
Proof.
  intros Hrun Hrank3 Hfuel.
  assert (Hrank : (2 <= dim input)%Z) by lia.
  unfold window_pass in Hrun.
  rewrite do_while_box in Hrun;
    [| now apply kernelSize_length | now apply fuel_for_window].
  rewrite visit_total in Hrun. injection Hrun as <-.
  split.
  - rewrite run_heap. reflexivity.
  - intros j Hj. rewrite run_value_outside by exact Hj.
    now apply zero_aggregates_outside.
Qed.

Lemma window_pass_frame_witness :
  exists st',
    window_pass sample_input 1 1 0 (home_at sample_input [0%Z])
      (fuel_for sample_input 1) sample_state = Some st'
    /\ st_heap st' = sample_heap
    /\ valueSum st' 1%Z = 0.
Proof.
  assert (H1 : (2 <= dim sample_input)%Z) by (unfold dim; simpl; lia).
  assert (H3 : (3 <= dim sample_input)%Z) by (unfold dim; simpl; lia).
  assert (H2 : 0 < 1) by lra.
  destruct (window_pass_average sample_input 1 1 0
              (home_at sample_input [0%Z]) (fuel_for sample_input 1)
              sample_state H1 H2 (le_n _)) as (st' & Hrun & _).
  exists st'. split; [exact Hrun|].
  destruct (window_pass_frame sample_input 1 1 0 (home_at sample_input [0%Z])
              (fuel_for sample_input 1) sample_state st' Hrun H3 (le_n _))
    as [Hh Hv].
  split; [exact Hh|].
  rewrite Hv; [reflexivity|].
  unfold channelCount, size, get. simpl. lia.
Defined.

(** X10.  The loop over the window runs its body at
    [windowSize ^ spatialDimensionCount] positions for each home element,
    whatever the body is. *)
Theorem window_loop_count (input : Tensor) (spatialSigma : R) (fuel : nat) :
  (3 <= dim input)%Z ->
  0 < spatialSigma ->
  (fuel_for input spatialSigma <= fuel)%nat ->
  enumerate fuel
    (Indexer_new (spatialDimensionCount input)
       (kernelSize input spatialSigma))
  = Some (box_coords (kernelSize input spatialSigma))
  /\ Z.of_nat (length (box_coords (kernelSize input spatialSigma)))
     = (windowSize spatialSigma ^ spatialDimensionCount input)%Z
  /\ forall (S : Type) (body : Indexer -> S -> option S) (s : S),
       do_while fuel body
         (Indexer_new (spatialDimensionCount input)
            (kernelSize input spatialSigma)) s
       = visit (spatialDimensionCount input) (kernelSize input spatialSigma)
           body (box_coords (kernelSize input spatialSigma)) s.
Proof.
  intros Hrank3 Hs Hfuel.
  assert (Hrank : (2 <= dim input)%Z) by lia.
  pose proof (kernelSize_length input spatialSigma Hrank) as Hlen.
  pose proof (kernelSize_effective input spatialSigma Hs) as Heff.
  pose proof (fuel_for_window _ _ _ Hfuel) as Hf.
  pose proof (windowSize_pos spatialSigma Hs) as Hw.
  pose proof (spatialDimensionCount_nonneg input Hrank) as Hd.
  split; [|split].
  - rewrite <- Heff at 2. now apply enumerate_box.
  - rewrite box_coords_length, kernelSize_repeat, volume_repeat.
    rewrite (Z2Nat.id (spatialDimensionCount input)) by exact Hd.
    apply Z2Nat.id, Z.pow_nonneg. lia.
  - intros S body s. rewrite do_while_box by assumption.
    now rewrite Heff.
Qed.

Lemma window_loop_count_witness :
  (3 <= dim sample_input)%Z
  /\ 0 < 1
  /\ enumerate (fuel_for sample_input 1)
       (Indexer_new (spatialDimensionCount sample_input)
          (kernelSize sample_input 1))
     = Some (box_coords (kernelSize sample_input 1))
  /\ Z.of_nat (length (box_coords (kernelSize sample_input 1)))
     = (windowSize 1 ^ spatialDimensionCount sample_input)%Z.
Proof.
  assert (H1 : (3 <= dim sample_input)%Z) by (unfold dim; simpl; lia).
  assert (H2 : 0 < 1) by lra.
  split; [exact H1|]. split; [exact H2|].
  destruct (window_loop_count sample_input 1 (fuel_for sample_input 1)
              H1 H2 (le_n _)) as (He & Hl & _).
  split; [exact He | exact Hl].
Defined.

(** * What a call leaves in the output *)

Lemma counters_nonpos n : (n <= 0)%Z -> counters n = [].
Proof.
  intros Hn. unfold counters.
  replace (Z.to_nat n) with 0%nat by lia. reflexivity.
Qed.

















(** X13.  With an empty batch axis or an empty channel axis the call
    returns without a single store: the store it returns is the one that
    the allocation of the output left, the output buffer all zero and
    every other buffer as before. *)
Theorem empty_axis_no_store (fuel : nat) (h : Heap) (input : Tensor)
  (spatialSigma colorSigma : R) :
  (3 <= dim input)%Z ->
  t_dtype input = Float ->
  0 < spatialSigma ->
  (fuel_for input spatialSigma <= fuel)%nat ->
  (batchCount input <= 0)%Z \/ (channelCount input <= 0)%Z ->
  BilateralFilterCpu fuel h input spatialSigma colorSigma
  = Returned (zeros_like h input)
  /\ (forall o, load (fst (zeros_like h input))
                  (t_data (snd (zeros_like h input))) o = 0)
  /\ (forall p o, (p < h_next h)%nat ->
        load (fst (zeros_like h input)) p o = load h p o).
Proof.
  intros Hrank Hdtype Hs Hfuel Hempty.
  assert (Hrank2 : (2 <= dim input)%Z) by lia.
  set (h1 := fst (zeros_like h input)).
  set (out := h_next h).
  assert (Hloop : exists st,
            batch_loop input spatialSigma colorSigma out fuel
              {| st_heap := h1; valueSum := blank; weightSum := 0 |}
            = Some st
            /\ st_heap st = h1).
  { unfold batch_loop. destruct Hempty as [Hb|Hc].
    - rewrite (counters_nonpos _ Hb). cbn [for_each]. eexists. now split.
    - destruct (for_each_progress
                  (fun s => st_heap s = h1)
                  (fun _ _ => True) (fun _ _ => True)
                  (fun b s =>
                     do_while fuel
                       (fun homeIndex s' =>
                          home_body input spatialSigma colorSigma out
                            (b * batchStride input) homeIndex fuel s')
                       (Indexer_new (spatialDimensionCount input)
                          (spatialDimensionSizes input)) s)
                  (counters (batchCount input)))
        with (s := {| st_heap := h1; valueSum := blank; weightSum := 0 |})
        as (st & Hrun & Hst & _).
      + auto.
      + auto.
      + auto.
      + intros b s _ Hinv.
        rewrite do_while_box;
          [| now apply spatial_sizes_length
           | now apply (fuel_for_home input spatialSigma)].
        destruct (visit_invariant
                    (fun s => st_heap s = h1)
                    (spatialDimensionCount input)
                    (spatialDimensionSizes input)
                    (fun homeIndex s' =>
                       home_body input spatialSigma colorSigma out
                         (b * batchStride input) homeIndex fuel s')
                    (box_coords (effective (spatialDimensionSizes input))))
          with (s := s) as (s' & Hv & Hs').
        * intros k t _ Ht.
          destruct (window_pass_average input spatialSigma colorSigma
                      (b * batchStride input)
                      (mkIndexer (spatialDimensionCount input)
                         (spatialDimensionSizes input) k)
                      fuel t Hrank2 Hs Hfuel) as (t1 & Hrun & Hheap & _).
          unfold home_body. rewrite Hrun. cbn [option_map].
          eexists. split; [reflexivity|].
          unfold write_output, for_loop. cbn [st_heap].
          rewrite (counters_nonpos _ Hc). cbn [fold_left]. congruence.
        * exact Hinv.
        * exists s'. auto.
      + reflexivity.
      + exists st. auto. }
  destruct Hloop as (st & Hrun & Hst).
  split; [|split].
  - unfold BilateralFilterCpu, zeros_like.
    destruct (Z.ltb_spec (dim input) 2); [lia|].
    rewrite Hdtype. cbn [t_data].
    unfold h1, out, zeros_like in Hrun, Hst. cbn [fst] in Hrun, Hst.
    rewrite Hrun, Hst. reflexivity.
  - intros o. unfold load, h1, zeros_like. cbn [fst snd t_data h_cell].
    rewrite Nat.eqb_refl. reflexivity.
  - intros p o Hp. unfold load, h1. now rewrite zeros_like_only_at.
Qed.

Lemma empty_axis_no_store_witness :
  BilateralFilterCpu (fuel_for empty_batch_input 1) sample_heap
    empty_batch_input 1 1
  = Returned (zeros_like sample_heap empty_batch_input).
Proof.
  assert (H1 : (3 <= dim empty_batch_input)%Z)
    by (unfold dim; simpl; lia).
  assert (H2 : 0 < 1) by lra.
  assert (H3 : (batchCount empty_batch_input <= 0)%Z
               \/ (channelCount empty_batch_input
                   <= 0)%Z)
    by (left; unfold batchCount, size, get; simpl; lia).
  exact (proj1 (empty_axis_no_store
                  (fuel_for empty_batch_input 1)
                  sample_heap empty_batch_input 1 1
                  H1 eq_refl H2 (le_n _) H3)).
Defined.

(** * The colour weight *)





